(** * StackAllocator: a fixed-capacity bump allocator

    Shallow embedding of [src/C_C++/StackAllocator.h].

    The class template [StackAllocator<N, alignment>] owns an inline
    buffer [char buffer[N]] declared [alignas(alignment)] and one member
    [char *pointer].  Addresses are modelled the way the code treats them
    (it casts a [char*] to [uintptr_t] in [isAligned]): as 64-bit
    unsigned integers in a flat address space.  [std::size_t] and
    [uintptr_t] are 64-bit unsigned integers whose arithmetic wraps
    modulo [2^64]; every wrap-around is written out with [SizeT.wrap]. *)

From Stdlib Require Import ZArith Lia List String Bool Znumtheory.
Import ListNotations.
Local Open Scope Z_scope.

(** ** Machine integers *)

Module SizeT.

Definition bits : Z := 64.
Definition modulus : Z := 2 ^ bits.

(** Conversion of a mathematical integer to [std::size_t]. *)
Definition wrap (x : Z) : Z := x mod modulus.

Definition add (x y : Z) : Z := wrap (x + y).
Definition sub (x y : Z) : Z := wrap (x - y).
(** [~x] on an unsigned 64-bit operand. *)
Definition not (x : Z) : Z := wrap (Z.lnot x).

Definition in_range (x : Z) : Prop := 0 <= x < modulus.

End SizeT.

(** [p + n] for a [char *p] and a [std::size_t n]: an address computation
    in the flat 64-bit address space. *)
Definition ptr_add (p n : Z) : Z := SizeT.wrap (p + n).

Definition nullptr : Z := 0.

(** What one statement [std::cerr << a << b << std::endl] inserts into the
    stream.  The textual form of a [void*] is left to the implementation,
    so the address itself is recorded. *)
Inductive cerr_item : Type :=
| Text (s : string)
| VoidPtr (p : Z)
| Endl.

Definition ostream : Type := list cerr_item.

(** [a] is a power of two that a [std::size_t] can hold. *)
Definition power_of_two (a : Z) : Prop :=
  exists k, 0 <= k < SizeT.bits /\ a = 2 ^ k.

(** [m] is the least multiple of [a] that is at least [n]. *)
Definition least_multiple_geq (a n m : Z) : Prop :=
  (a | m) /\ n <= m /\ forall m', (a | m') -> n <= m' -> m <= m'.

(** ** The class *)

Section StackAllocator.

(** Template parameters [N] and [alignment], and the address at which
    the member [buffer] lives. *)
Variables N alignment buffer : Z.

(** The only mutable member. *)
Record StackAllocator : Type := mkStackAllocator { pointer : Z }.

(** [StackAllocator() noexcept : pointer(buffer) {}] *)
Definition init : StackAllocator := mkStackAllocator buffer.

(** [static constexpr std::size_t size()] *)
Definition size : Z := N.

(** [used()]: [static_cast<std::size_t>(pointer - buffer)] *)
Definition used (s : StackAllocator) : Z := SizeT.wrap (pointer s - buffer).

(** [reset()]: [pointer = buffer] *)
Definition reset (s : StackAllocator) : StackAllocator :=
  mkStackAllocator buffer.

(** [align_up]: [(n + (alignment - 1)) & ~(alignment - 1)], all in
    [std::size_t]. *)
Definition align_up (n : Z) : Z :=
  Z.land (SizeT.add n (SizeT.sub alignment 1))
         (SizeT.not (SizeT.sub alignment 1)).

(** [isAligned]: [((uintptr_t) p & (alignment - 1)) == 0] *)
Definition isAligned (p : Z) : bool :=
  Z.land p (SizeT.sub alignment 1) =? 0.

(** [pointer_in_buffer]: [buffer <= p && p <= buffer + N] *)
Definition pointer_in_buffer (p : Z) : bool :=
  (buffer <=? p) && (p <=? ptr_add buffer N).

(** [allocate<ReqAlign>(n)].  [ReqAlign] only occurs in the
    [static_assert(ReqAlign <= alignment)], which decides whether the
    instantiation exists at all ([allocate_instantiable]); it plays no
    part at run time.  The result is the returned [char*] and the
    allocator afterwards. *)
Definition allocate_instantiable (ReqAlign : Z) : Prop :=
  ReqAlign <= alignment.

Definition allocate (ReqAlign n : Z) (s : StackAllocator)
  : Z * StackAllocator :=
  let aligned_n := align_up n in
  if SizeT.wrap (buffer - pointer s + N) >=? aligned_n then
    let r := pointer s in
    (r, mkStackAllocator (ptr_add (pointer s) aligned_n))
  else
    (nullptr, s).

(** [deallocate(p, n)] *)
Definition deallocate (p n : Z) (s : StackAllocator) : StackAllocator :=
  if pointer_in_buffer p then
    let n := align_up n in
    if ptr_add p n =? pointer s then mkStackAllocator p else s
  else s.

(** [getCurrentMarker()] *)
Definition getCurrentMarker (s : StackAllocator) : Z * StackAllocator :=
  (pointer s, s).

(** The line that [resetToMarker(p)] inserts into [std::cerr]. *)
Definition diagnostic (p : Z) : ostream :=
  [Text "The pointer provided is not aligned: "; VoidPtr p; Endl].

(** [resetToMarker(p)].  The insertion into [std::cerr] is the last
    statement of the function body and is outside the [if]; the result
    is the allocator afterwards and what the call wrote to the stream. *)
Definition resetToMarker (p : Z) (s : StackAllocator)
  : StackAllocator * ostream :=
  let s' := if pointer_in_buffer p && isAligned p
            then mkStackAllocator p else s in
  (s', diagnostic p).

(** ** Calls and runs *)

Inductive call : Type :=
| Allocate (ReqAlign n : Z)
| Deallocate (p n : Z)
| GetCurrentMarker
| ResetToMarker (p : Z)
| Reset.

Definition exec (c : call) (s : StackAllocator) : StackAllocator :=
  match c with
  | Allocate ra n => snd (allocate ra n s)
  | Deallocate p n => deallocate p n s
  | GetCurrentMarker => snd (getCurrentMarker s)
  | ResetToMarker p => fst (resetToMarker p s)
  | Reset => reset s
  end.

Definition run (cs : list call) (s : StackAllocator) : StackAllocator :=
  fold_left (fun st c => exec c st) cs s.

(** States the allocator can be in after construction and any calls. *)
Inductive reachable : StackAllocator -> Prop :=
| reachable_init : reachable init
| reachable_exec c s : reachable s -> reachable (exec c s).

(** A run of allocations only, given by the requested sizes. *)
Definition allocate_all (ns : list Z) (s : StackAllocator) : StackAllocator :=
  fold_left (fun st n => snd (allocate 1 n st)) ns s.

(** The sum of the padded sizes of a list of requests. *)
Definition padded_total (ns : list Z) : Z :=
  fold_right (fun n acc => align_up n + acc) 0 ns.

(** A caller that keeps the stack discipline: each request of the list is
    allocated, the rest of the list is served inside its lifetime, and
    the block is then handed back with the result of [allocate] and the
    size that was asked for, without looking at the result first. *)
Fixpoint allocate_scoped (ns : list Z) (s : StackAllocator) : StackAllocator :=
  match ns with
  | [] => s
  | n :: ns' =>
      let '(p, s1) := allocate 1 n s in
      deallocate p n (allocate_scoped ns' s1)
  end.

(** ** Well-formed instances and states *)

(** What the language and the declaration of [buffer] guarantee about an
    instance: the array of [N] bytes lies in the address space, its
    one-past-the-end address included; its address is not null and, by
    [alignas(alignment)], a multiple of [alignment]. *)
Definition buffer_ok : Prop :=
  0 <= N /\
  0 < buffer /\ buffer + N < SizeT.modulus /\
  (alignment | buffer).

(** The member [pointer] points into the buffer or one past its end. *)
Definition in_bounds (s : StackAllocator) : Prop :=
  buffer <= pointer s <= buffer + N.

(** The cursor invariant of the data model. *)
Definition cursor_ok (s : StackAllocator) : Prop :=
  0 <= used s <= N /\ (alignment | used s).

Definition inv (s : StackAllocator) : Prop :=
  in_bounds s /\ (alignment | pointer s - buffer).

(** ** Machine arithmetic *)

Lemma used_init : used init = 0.
Proof. unfold used, init. simpl. rewrite Z.sub_diag. reflexivity. Qed.

Lemma modulus_pos : 0 < SizeT.modulus.
Proof. reflexivity. Qed.

Lemma wrap_small x : SizeT.in_range x -> SizeT.wrap x = x.
Proof. intros Hx. apply Z.mod_small. exact Hx. Qed.

Lemma wrap_range x : SizeT.in_range (SizeT.wrap x).
Proof. apply Z.mod_pos_bound. exact modulus_pos. Qed.

(** ** Arithmetic of the masks *)

Hypothesis Hpow : power_of_two alignment.

Lemma alignment_pos : 0 < alignment.
Proof.
  destruct Hpow as [k [Hk Ha]]; unfold SizeT.bits in Hk. rewrite Ha.
  apply Z.pow_pos_nonneg; lia.
Qed.

Lemma alignment_range : SizeT.in_range alignment.
Proof.
  pose proof alignment_pos as Hpos.
  destruct Hpow as [k [Hk Ha]]; unfold SizeT.bits in Hk. split; [lia|].
  rewrite Ha. unfold SizeT.modulus, SizeT.bits.
  apply Z.pow_lt_mono_r; lia.
Qed.

Lemma alignment_divides_modulus : (alignment | SizeT.modulus).
Proof.
  destruct Hpow as [k [Hk Ha]]; unfold SizeT.bits in Hk.
  exists (2 ^ (64 - k)). rewrite Ha. unfold SizeT.modulus, SizeT.bits.
  rewrite <- Z.pow_add_r by lia. f_equal. lia.
Qed.

Lemma mask_value : SizeT.sub alignment 1 = alignment - 1.
Proof.
  unfold SizeT.sub. apply wrap_small.
  pose proof alignment_range as Hr. pose proof alignment_pos as Hp.
  unfold SizeT.in_range in *. lia.
Qed.

(** [x & (alignment - 1)] is the remainder of [x] by [alignment]. *)
Lemma land_mask x : Z.land x (SizeT.sub alignment 1) = x mod alignment.
Proof.
  rewrite mask_value.
  destruct Hpow as [k [Hk Ha]]; unfold SizeT.bits in Hk. rewrite Ha.
  rewrite <- Z.land_ones by lia.
  rewrite Z.ones_equiv, Z.sub_1_r. reflexivity.
Qed.

(** [x & ~(alignment - 1)] clears the remainder of a word [x]. *)
Lemma land_not_mask x :
  SizeT.in_range x ->
  Z.land x (SizeT.not (SizeT.sub alignment 1)) = alignment * (x / alignment).
Proof.
  intros Hx. rewrite mask_value.
  destruct Hpow as [k [Hk Ha]]; unfold SizeT.bits in Hk. rewrite Ha.
  unfold SizeT.not, SizeT.wrap, SizeT.modulus.
  rewrite <- Z.land_ones by (unfold SizeT.bits; lia).
  rewrite Z.land_assoc, (Z.land_comm x), <- Z.land_assoc.
  rewrite (Z.land_ones x) by (unfold SizeT.bits; lia).
  rewrite (Z.mod_small x) by exact Hx.
  rewrite Z.land_comm, <- Z.ldiff_land.
  rewrite Z.sub_1_r, <- Z.ones_equiv.
  rewrite Z.ldiff_ones_r by lia.
  rewrite Z.shiftl_mul_pow2, Z.shiftr_div_pow2 by lia.
  apply Z.mul_comm.
Qed.

Lemma align_up_eq n :
  align_up n = alignment * (SizeT.wrap (n + (alignment - 1)) / alignment).
Proof.
  unfold align_up. rewrite land_not_mask.
  - unfold SizeT.add. rewrite mask_value. reflexivity.
  - apply wrap_range.
Qed.

Lemma align_up_divide n : (alignment | align_up n).
Proof. rewrite align_up_eq. apply Z.divide_factor_l. Qed.

Lemma align_up_range n : SizeT.in_range (align_up n).
Proof.
  rewrite align_up_eq. pose proof alignment_pos as Ha.
  pose proof (wrap_range (n + (alignment - 1))) as [Hlo Hhi].
  pose proof (Z.mul_div_le (SizeT.wrap (n + (alignment - 1))) _ Ha).
  pose proof (Z.div_pos (SizeT.wrap (n + (alignment - 1))) _ Hlo Ha).
  unfold SizeT.in_range. nia.
Qed.

(** Without wrap-around of [n + (alignment - 1)] the result is the
    rounded-up size. *)
Lemma align_up_no_wrap n :
  0 <= n -> n + (alignment - 1) < SizeT.modulus ->
  least_multiple_geq alignment n (align_up n).
Proof.
  intros Hn Hfit. pose proof alignment_pos as Ha.
  rewrite align_up_eq, wrap_small by (unfold SizeT.in_range; lia).
  pose proof (Z.mul_div_le (n + (alignment - 1)) _ Ha) as Hle.
  pose proof (Z.mul_succ_div_gt (n + (alignment - 1)) _ Ha) as Hgt.
  repeat split.
  - apply Z.divide_factor_l.
  - lia.
  - intros m' [q Hq] Hm'. subst m'.
    assert (Hlt : (n + (alignment - 1)) / alignment < q + 1) by nia.
    nia.
Qed.

Lemma align_up_0 : align_up 0 = 0.
Proof.
  pose proof alignment_pos as Ha. pose proof alignment_range as Hr.
  unfold SizeT.in_range in Hr.
  rewrite align_up_eq, wrap_small by (unfold SizeT.in_range; lia).
  rewrite Z.div_small by lia. lia.
Qed.

Lemma isAligned_iff p : isAligned p = true <-> (alignment | p).
Proof.
  pose proof alignment_pos as Ha.
  unfold isAligned. rewrite land_mask, Z.eqb_eq.
  apply Z.mod_divide. lia.
Qed.

(** ** The buffer and the states inside it *)

Hypothesis Hbuf : buffer_ok.

Lemma buffer_end : ptr_add buffer N = buffer + N.
Proof.
  destruct Hbuf as (HN & Hb & Hend & _).
  apply wrap_small. unfold SizeT.in_range. lia.
Qed.

Lemma pointer_in_buffer_iff p :
  pointer_in_buffer p = true <-> buffer <= p <= buffer + N.
Proof.
  unfold pointer_in_buffer.
  rewrite buffer_end, andb_true_iff, !Z.leb_le. tauto.
Qed.

Lemma alignment_le_buffer : alignment <= buffer.
Proof.
  destruct Hbuf as (_ & Hb & _ & Hd).
  apply Z.divide_pos_le; assumption.
Qed.

Lemma used_in_bounds s : in_bounds s -> used s = pointer s - buffer.
Proof.
  intros Hs. destruct Hbuf as (HN & Hb & Hend & _).
  apply wrap_small. unfold in_bounds, SizeT.in_range in *. lia.
Qed.

Lemma remaining_in_bounds s :
  in_bounds s -> SizeT.wrap (buffer - pointer s + N) = N - used s.
Proof.
  intros Hs. rewrite (used_in_bounds s Hs).
  destruct Hbuf as (HN & Hb & Hend & _).
  rewrite wrap_small; unfold in_bounds, SizeT.in_range in *; lia.
Qed.

(** The two outcomes of [allocate] on a state inside the buffer. *)
Lemma allocate_fits ReqAlign n s :
  in_bounds s -> align_up n <= N - used s ->
  allocate ReqAlign n s
  = (pointer s, mkStackAllocator (pointer s + align_up n)).
Proof.
  intros Hs Hfit. unfold allocate.
  rewrite (remaining_in_bounds s Hs), Z.geb_leb.
  apply Z.leb_le in Hfit. rewrite Hfit. f_equal. f_equal.
  apply Z.leb_le in Hfit. rewrite (used_in_bounds s Hs) in Hfit.
  pose proof (align_up_range n) as Hr.
  destruct Hbuf as (HN & Hb & Hend & _).
  apply wrap_small. unfold in_bounds, SizeT.in_range in *. lia.
Qed.

Lemma allocate_exhausted ReqAlign n s :
  in_bounds s -> N - used s < align_up n ->
  allocate ReqAlign n s = (nullptr, s).
Proof.
  intros Hs Hfit. unfold allocate.
  rewrite (remaining_in_bounds s Hs), Z.geb_leb.
  apply Z.leb_gt in Hfit. rewrite Hfit. reflexivity.
Qed.

Lemma in_bounds_not_null s : in_bounds s -> pointer s <> nullptr.
Proof.
  intros Hs. destruct Hbuf as (_ & Hb & _).
  unfold in_bounds, nullptr in *. lia.
Qed.

(** ** The invariant *)

Lemma inv_init : inv init.
Proof.
  destruct Hbuf as (HN & _).
  split; [unfold in_bounds; simpl; lia|].
  simpl. rewrite Z.sub_diag. apply Z.divide_0_r.
Qed.

Lemma inv_allocate ReqAlign n s : inv s -> inv (snd (allocate ReqAlign n s)).
Proof.
  intros [Hs Hd].
  destruct (Z_le_gt_dec (align_up n) (N - used s)) as [Hfit | Hfit].
  - rewrite (allocate_fits ReqAlign n s Hs Hfit). simpl.
    pose proof (align_up_range n) as [Hlo _].
    rewrite (used_in_bounds s Hs) in Hfit.
    split; [unfold in_bounds in *; simpl; lia|]. simpl.
    replace (pointer s + align_up n - buffer)
      with ((pointer s - buffer) + align_up n) by lia.
    apply Z.divide_add_r; [exact Hd | apply align_up_divide].
  - rewrite (allocate_exhausted ReqAlign n s Hs) by lia.
    split; assumption.
Qed.

Lemma inv_deallocate p n s : inv s -> inv (deallocate p n s).
Proof.
  intros [Hs Hd]. unfold deallocate.
  destruct (pointer_in_buffer p) eqn:Hin; [|split; assumption].
  destruct (ptr_add p (align_up n) =? pointer s) eqn:Htop;
    [|split; assumption].
  apply pointer_in_buffer_iff in Hin. apply Z.eqb_eq in Htop.
  split; [exact Hin|]. simpl.
  (* [p + align_up n] and [pointer s] differ by a multiple of [2^64] *)
  unfold ptr_add, SizeT.wrap in Htop.
  pose proof alignment_divides_modulus as Hm.
  pose proof (align_up_divide n) as Hn.
  pose proof (Z.div_mod (p + align_up n) SizeT.modulus) as Hdm.
  assert (Hne : SizeT.modulus <> 0) by (pose proof modulus_pos; lia).
  specialize (Hdm Hne). rewrite Htop in Hdm.
  replace (p - buffer)
    with ((pointer s - buffer)
          + (SizeT.modulus * ((p + align_up n) / SizeT.modulus)
             - align_up n)) by lia.
  apply Z.divide_add_r; [exact Hd|].
  apply Z.divide_sub_r; [|exact Hn].
  apply Z.divide_mul_l. exact Hm.
Qed.

Lemma inv_resetToMarker p s : inv s -> inv (fst (resetToMarker p s)).
Proof.
  intros Hinv. unfold resetToMarker. simpl.
  destruct (pointer_in_buffer p && isAligned p) eqn:Hok; [|exact Hinv].
  apply andb_true_iff in Hok. destruct Hok as [Hin Hal].
  apply pointer_in_buffer_iff in Hin. apply isAligned_iff in Hal.
  split; [exact Hin|]. simpl.
  destruct Hbuf as (_ & _ & _ & Hb).
  apply Z.divide_sub_r; assumption.
Qed.

Lemma inv_exec c s : inv s -> inv (exec c s).
Proof.
  intros Hinv. destruct c; simpl.
  - apply inv_allocate. exact Hinv.
  - apply inv_deallocate. exact Hinv.
  - exact Hinv.
  - apply inv_resetToMarker. exact Hinv.
  - apply inv_init.
Qed.

Lemma reachable_inv s : reachable s -> inv s.
Proof.
  induction 1 as [|c s _ IH]; [apply inv_init | apply inv_exec, IH].
Qed.

Lemma reachable_in_bounds s : reachable s -> in_bounds s.
Proof. intros Hr. apply reachable_inv, Hr. Qed.

Lemma reachable_run cs s : reachable s -> reachable (run cs s).
Proof.
  revert s. induction cs as [|c cs IH]; intros s Hr; simpl; [exact Hr|].
  apply IH. constructor. exact Hr.
Qed.

Lemma inv_cursor_ok s : inv s -> cursor_ok s.
Proof.
  intros [Hs Hd]. unfold cursor_ok.
  rewrite (used_in_bounds s Hs).
  split; [unfold in_bounds in Hs; lia | exact Hd].
Qed.

Lemma allocate_all_inv ns s : inv s -> inv (allocate_all ns s).
Proof.
  revert s. induction ns as [|n ns IH]; intros s Hinv; simpl; [exact Hinv|].
  apply IH, inv_allocate, Hinv.
Qed.

Lemma padded_total_nonneg ns : 0 <= padded_total ns.
Proof.
  induction ns as [|n ns IH]; simpl; [lia|].
  pose proof (align_up_range n) as [Hlo _]. lia.
Qed.

(** Allocations whose padded sizes fit in the remaining space all
    succeed: together they advance the cursor by the sum of the padded
    sizes. *)
Lemma allocate_all_used ns s :
  in_bounds s -> padded_total ns <= N - used s ->
  used (allocate_all ns s) = used s + padded_total ns.
Proof.
  revert s. induction ns as [|n ns IH]; intros s Hs Hfit; simpl in *; [lia|].
  pose proof (padded_total_nonneg ns) as Hns.
  pose proof (align_up_range n) as [Hlo _].
  assert (Hn : align_up n <= N - used s) by lia.
  rewrite (allocate_fits 1 n s Hs Hn). simpl.
  assert (Hs' : in_bounds (mkStackAllocator (pointer s + align_up n))).
  { rewrite (used_in_bounds s Hs) in Hn. unfold in_bounds in *. simpl. lia. }
  assert (Hu' : used (mkStackAllocator (pointer s + align_up n))
                = used s + align_up n).
  { rewrite (used_in_bounds _ Hs'), (used_in_bounds s Hs). simpl. lia. }
  rewrite (IH _ Hs') by lia. lia.
Qed.

(** A marker taken in a state that satisfies the invariant passes both
    checks of [resetToMarker], whatever state it is handed to. *)
Lemma resetToMarker_marker s t :
  inv s -> fst (resetToMarker (pointer s) t) = s.
Proof.
  intros [Hs Hd]. unfold resetToMarker. simpl.
  assert (Hin : pointer_in_buffer (pointer s) = true)
    by (apply pointer_in_buffer_iff; exact Hs).
  assert (Hal : isAligned (pointer s) = true).
  { apply isAligned_iff. destruct Hbuf as (_ & _ & _ & Hb).
    replace (pointer s) with ((pointer s - buffer) + buffer) by lia.
    apply Z.divide_add_r; assumption. }
  rewrite Hin, Hal. simpl. destruct s; reflexivity.
Qed.

(** Freeing the block that [allocate] has just returned. *)
Lemma deallocate_top n s :
  in_bounds s -> align_up n <= N - used s ->
  deallocate (pointer s) n (mkStackAllocator (pointer s + align_up n)) = s.
Proof.
  intros Hs Hfit. unfold deallocate.
  assert (Hin : pointer_in_buffer (pointer s) = true)
    by (apply pointer_in_buffer_iff; exact Hs).
  rewrite Hin. simpl.
  assert (Hsum : ptr_add (pointer s) (align_up n) = pointer s + align_up n).
  { rewrite (used_in_bounds s Hs) in Hfit.
    pose proof (align_up_range n) as Hr.
    destruct Hbuf as (HN & Hb & Hend & _).
    apply wrap_small. unfold in_bounds, SizeT.in_range in *. lia. }
  rewrite Hsum, Z.eqb_refl. destruct s; reflexivity.
Qed.

(** When [p + align_up(n)] stays inside the address space, [deallocate]
    can only lower the cursor. *)
Lemma deallocate_no_wrap_le p n s :
  in_bounds s -> p + align_up n < SizeT.modulus ->
  used (deallocate p n s) <= used s.
Proof.
  intros Hs Hfit. unfold deallocate.
  destruct (pointer_in_buffer p) eqn:Hin; [|lia].
  destruct (ptr_add p (align_up n) =? pointer s) eqn:Htop; [|lia].
  apply pointer_in_buffer_iff in Hin. apply Z.eqb_eq in Htop.
  pose proof (align_up_range n) as [Hlo _].
  destruct Hbuf as (HN & Hb & Hend & _).
  unfold ptr_add in Htop. rewrite wrap_small in Htop
    by (unfold SizeT.in_range; lia).
  rewrite (used_in_bounds s Hs), (used_in_bounds (mkStackAllocator p) Hin).
  simpl. lia.
Qed.

(** The pointer sum that [deallocate] compares with the cursor is the
    exact sum whenever that sum is an address. *)
Lemma ptr_add_exact p n :
  buffer <= p -> p + align_up n < SizeT.modulus ->
  ptr_add p (align_up n) = p + align_up n.
Proof.
  intros Hp Hfit. pose proof (align_up_range n) as [Hlo _].
  destruct Hbuf as (_ & Hb & _).
  apply wrap_small. unfold SizeT.in_range. lia.
Qed.

(** The stream insertion of [resetToMarker] does not depend on the
    outcome of the checks. *)
Lemma resetToMarker_always_writes m s :
  snd (resetToMarker m s) = diagnostic m.
Proof. reflexivity. Qed.

(** ** The operations *)

(** C1: in every state the arena can be in, with [c = used()], a request
    [allocate<ReqAlign>(n)] with [ReqAlign <= alignment] succeeds (returns
    a pointer other than the null pointer) exactly when
    [align_up(n) <= N - c].  On success the result is [buffer + c] and
    [used()] grows by [align_up(n)]; on failure the result is the null
    pointer and the allocator is unchanged. *)
Theorem allocate_succeeds_iff_fits ReqAlign n s :
  allocate_instantiable ReqAlign -> reachable s ->
  let c := used s in
  let r := fst (allocate ReqAlign n s) in
  let s' := snd (allocate ReqAlign n s) in
  (r <> nullptr <-> align_up n <= N - c) /\
  (align_up n <= N - c -> r = buffer + c /\ used s' = c + align_up n) /\
  (~ align_up n <= N - c -> r = nullptr /\ s' = s).
Proof.
  intros _ Hr. pose proof (reachable_in_bounds s Hr) as Hs. cbv zeta.
  destruct (Z_le_gt_dec (align_up n) (N - used s)) as [Hfit | Hfit].
  - pose proof (inv_allocate ReqAlign n s (reachable_inv s Hr)) as [Hs' _].
    rewrite (used_in_bounds _ Hs').
    rewrite (allocate_fits ReqAlign n s Hs Hfit) in *. simpl.
    pose proof (in_bounds_not_null s Hs) as Hnn.
    rewrite (used_in_bounds s Hs) in *.
    split; [tauto|]. split; [|tauto]. intros _. split; lia.
  - rewrite (allocate_exhausted ReqAlign n s Hs) by lia. simpl.
    split; [|split].
    + split; [congruence | lia].
    + lia.
    + intros _. split; reflexivity.
Qed.

(** The branches of [deallocate(p, n)], with the comparison as the code
    computes it.  If [p] lies outside [[buffer, buffer + N]] the state is
    unchanged.  Otherwise, if the 64-bit pointer sum [p + align_up(n)]
    equals the current cursor, the cursor becomes [p].  In every
    remaining case the state is unchanged.  The pointer sum is the sum
    of the integers whenever that sum is an address; when it is not, see
    [deallocate_wrapped_sum_moves_cursor] below. *)
Theorem deallocate_cases p n s :
  (~ buffer <= p <= buffer + N -> deallocate p n s = s) /\
  (buffer <= p <= buffer + N -> ptr_add p (align_up n) = pointer s ->
   pointer (deallocate p n s) = p /\ used (deallocate p n s) = p - buffer) /\
  (buffer <= p <= buffer + N -> ptr_add p (align_up n) <> pointer s ->
   deallocate p n s = s) /\
  (buffer <= p <= buffer + N -> p + align_up n < SizeT.modulus ->
   ptr_add p (align_up n) = p + align_up n).
Proof.
  assert (Hsum : buffer <= p <= buffer + N ->
                 p + align_up n < SizeT.modulus ->
                 ptr_add p (align_up n) = p + align_up n)
    by (intros [Hlo _] Hfit; apply ptr_add_exact; assumption).
  unfold deallocate.
  destruct (pointer_in_buffer p) eqn:Hin.
  - apply pointer_in_buffer_iff in Hin.
    destruct (ptr_add p (align_up n) =? pointer s) eqn:Htop.
    + apply Z.eqb_eq in Htop. split; [tauto|]. split; [|tauto].
      intros _ _. split; [reflexivity|].
      apply (used_in_bounds (mkStackAllocator p)). exact Hin.
    + apply Z.eqb_neq in Htop. split; [tauto|]. split; tauto.
  - assert (Hout : ~ buffer <= p <= buffer + N).
    { intros H. apply pointer_in_buffer_iff in H. congruence. }
    split; [tauto|]. split; tauto.
Qed.

(** C3: [resetToMarker(m)] sets the cursor to [m] when [m] is an address
    in [[buffer, buffer + N]] and a multiple of [alignment].  When one
    of the two checks fails, the diagnostic line is written to the
    standard error stream and the allocator is unchanged. *)
Theorem resetToMarker_checks m s :
  let valid := buffer <= m <= buffer + N /\ (alignment | m) in
  (valid -> pointer (fst (resetToMarker m s)) = m) /\
  (~ valid ->
   snd (resetToMarker m s) = diagnostic m /\ fst (resetToMarker m s) = s).
Proof.
  cbv zeta. unfold resetToMarker. simpl.
  destruct (pointer_in_buffer m && isAligned m) eqn:Hok.
  - split; [reflexivity|]. intros Hbad. exfalso. apply Hbad.
    apply andb_true_iff in Hok. destruct Hok as [Hin Hal].
    split; [apply pointer_in_buffer_iff, Hin | apply isAligned_iff, Hal].
  - split; [|intros _; split; reflexivity].
    intros [Hin Hal]. exfalso.
    apply pointer_in_buffer_iff in Hin. apply isAligned_iff in Hal.
    rewrite Hin, Hal in Hok. discriminate.
Qed.

(** C4: when [alignment] is a power of two, every state reachable from
    the constructed allocator (where [used()] is 0) has
    [0 <= used() <= N] and [used()] a multiple of [alignment], and every
    call of [allocate], [deallocate], [getCurrentMarker],
    [resetToMarker] or [reset] in such a state leads to a state with the
    same two properties. *)
Theorem cursor_invariant s :
  reachable s ->
  used init = 0 /\
  (0 <= used s <= N /\ (alignment | used s)) /\
  forall c, 0 <= used (exec c s) <= N /\ (alignment | used (exec c s)).
Proof.
  intros Hr. split; [apply used_init|]. split.
  - apply inv_cursor_ok, reachable_inv, Hr.
  - intros c. apply inv_cursor_ok, reachable_inv, reachable_exec, Hr.
Qed.

(** C5, amended: for a power-of-two [alignment] and a size [n] for which
    [n + (alignment - 1)] does not exceed the largest [std::size_t],
    [align_up(n)] is [alignment * ceil(n / alignment)], the least
    multiple of [alignment] that is at least [n]. *)
Theorem align_up_least_multiple n :
  0 <= n -> n + (alignment - 1) < SizeT.modulus ->
  align_up n = alignment * ((n + (alignment - 1)) / alignment) /\
  least_multiple_geq alignment n (align_up n).
Proof.
  intros Hn Hfit. split; [|apply align_up_no_wrap; assumption].
  pose proof alignment_pos as Ha.
  rewrite align_up_eq, wrap_small by (unfold SizeT.in_range; lia).
  reflexivity.
Qed.

(** C6, amended: after [reset()], [used()] is 0 and the next allocation
    of [n] bytes succeeds, at the start of the buffer, exactly when the
    padded size [align_up(n)] is at most [N]; when [N] is a multiple of
    [alignment] this covers every [n] with [0 <= n <= N]. *)
Theorem reset_then_allocate ReqAlign n s :
  allocate_instantiable ReqAlign ->
  let r := fst (allocate ReqAlign n (reset s)) in
  used (reset s) = 0 /\
  (r <> nullptr <-> align_up n <= N) /\
  (align_up n <= N -> r = buffer) /\
  ((alignment | N) -> 0 <= n <= N -> r = buffer /\ r <> nullptr).
Proof.
  intros _. cbv zeta. pose proof inv_init as [Hs0 _].
  change (reset s) with init.
  pose proof (in_bounds_not_null init Hs0) as Hnn. simpl in Hnn.
  assert (Hu : used init = 0)
    by (rewrite (used_in_bounds _ Hs0); simpl; lia).
  assert (Hyes : align_up n <= N -> fst (allocate ReqAlign n init) = buffer).
  { intros Hfit. rewrite (allocate_fits ReqAlign n init Hs0) by lia.
    reflexivity. }
  split; [exact Hu|]. split; [|split].
  - split.
    + intros Hr. destruct (Z_le_gt_dec (align_up n) N) as [Hfit | Hfit];
        [exact Hfit|].
      rewrite (allocate_exhausted ReqAlign n init Hs0) in Hr by lia.
      simpl in Hr. congruence.
    + intros Hfit. rewrite (Hyes Hfit). exact Hnn.
  - exact Hyes.
  - intros HdN Hn. pose proof alignment_le_buffer as Hab.
    destruct Hbuf as (HN & Hb & Hend & _).
    assert (Hfit : n + (alignment - 1) < SizeT.modulus) by lia.
    destruct (align_up_no_wrap n (proj1 Hn) Hfit) as (_ & _ & Hleast).
    assert (Hle : align_up n <= N) by (apply Hleast; [exact HdN | lia]).
    rewrite (Hyes Hle). split; [reflexivity | exact Hnn].
Qed.

(** C7: take a marker [m] in a state the arena can be in and perform any
    sequence of allocations; [resetToMarker(m)] then brings [used()] back
    to its value when [m] was taken.  When the padded sizes total at most
    the space that remained at [m], the allocations all succeed, so that
    [used()] had advanced by that total before the reset. *)
Theorem marker_roundtrip s ns :
  reachable s ->
  let m := fst (getCurrentMarker s) in
  let s1 := allocate_all ns (snd (getCurrentMarker s)) in
  used (fst (resetToMarker m s1)) = used s /\
  (padded_total ns <= N - used s -> used s1 = used s + padded_total ns).
Proof.
  intros Hr. cbv zeta. unfold getCurrentMarker. cbn [fst snd]. split.
  - rewrite (resetToMarker_marker s _ (reachable_inv s Hr)). reflexivity.
  - apply allocate_all_used, reachable_in_bounds, Hr.
Qed.

(** C8: if [allocate(n)] succeeds and returns [p], then [deallocate(p, n)]
    right after it returns [used()] to its value before the allocation,
    and the next [allocate(n)] returns [p] again. *)
Theorem allocate_deallocate_lifo ReqAlign n s :
  reachable s -> fst (allocate ReqAlign n s) <> nullptr ->
  let p := fst (allocate ReqAlign n s) in
  let s1 := snd (allocate ReqAlign n s) in
  let s2 := deallocate p n s1 in
  used s2 = used s /\ fst (allocate ReqAlign n s2) = p.
Proof.
  intros Hr. pose proof (reachable_in_bounds s Hr) as Hs. cbv zeta.
  destruct (Z_le_gt_dec (align_up n) (N - used s)) as [Hfit | Hfit].
  - rewrite (allocate_fits ReqAlign n s Hs Hfit). simpl. intros _.
    rewrite (deallocate_top n s Hs Hfit).
    rewrite (allocate_fits ReqAlign n s Hs Hfit). simpl. tauto.
  - rewrite (allocate_exhausted ReqAlign n s Hs) by lia. simpl.
    intros Hnull. exfalso. apply Hnull. reflexivity.
Qed.

(** C9: in every state the arena can be in, [allocate(0)] succeeds: it
    returns the current cursor position [buffer + used()], which is not
    the null pointer and lies in [[buffer, buffer + N]], and it leaves
    the allocator, hence [used()], unchanged. *)
Theorem allocate_zero ReqAlign s :
  allocate_instantiable ReqAlign -> reachable s ->
  let r := fst (allocate ReqAlign 0 s) in
  let s' := snd (allocate ReqAlign 0 s) in
  r <> nullptr /\ r = buffer + used s /\ buffer <= r <= buffer + N /\
  s' = s /\ used s' = used s.
Proof.
  intros _ Hr. pose proof (reachable_in_bounds s Hr) as Hs. cbv zeta.
  pose proof (used_in_bounds s Hs) as Hu.
  assert (Hfit : align_up 0 <= N - used s)
    by (rewrite align_up_0; unfold in_bounds in Hs; lia).
  rewrite (allocate_fits ReqAlign 0 s Hs Hfit), align_up_0, Z.add_0_r.
  simpl. pose proof (in_bounds_not_null s Hs) as Hnn.
  assert (Hsame : mkStackAllocator (pointer s) = s) by (destruct s; reflexivity).
  rewrite Hsame. unfold in_bounds in Hs.
  split; [exact Hnn|]. split; [lia|]. split; [lia|]. split; reflexivity.
Qed.

(** ** Further properties of the operations *)

Lemma allocate_success_fits ReqAlign n s :
  in_bounds s -> fst (allocate ReqAlign n s) <> nullptr ->
  align_up n <= N - used s.
Proof.
  intros Hs Hok.
  destruct (Z_le_gt_dec (align_up n) (N - used s)) as [Hfit | Hfit];
    [exact Hfit|].
  rewrite (allocate_exhausted ReqAlign n s Hs) in Hok by lia.
  exfalso. apply Hok. reflexivity.
Qed.

Lemma allocate_pointer_le ReqAlign n s :
  in_bounds s ->
  in_bounds (snd (allocate ReqAlign n s)) /\
  pointer s <= pointer (snd (allocate ReqAlign n s)).
Proof.
  intros Hs.
  destruct (Z_le_gt_dec (align_up n) (N - used s)) as [Hfit | Hfit].
  - rewrite (allocate_fits ReqAlign n s Hs Hfit). cbn [snd pointer].
    pose proof (align_up_range n) as [Hlo _].
    rewrite (used_in_bounds s Hs) in Hfit.
    unfold in_bounds in *. cbn [pointer]. lia.
  - rewrite (allocate_exhausted ReqAlign n s Hs) by lia. cbn [snd].
    split; [exact Hs | lia].
Qed.

Lemma allocate_all_pointer_le ns s :
  in_bounds s ->
  in_bounds (allocate_all ns s) /\ pointer s <= pointer (allocate_all ns s).
Proof.
  revert s. induction ns as [|n ns IH]; intros s Hs.
  - split; [exact Hs | cbn [allocate_all fold_left]; lia].
  - change (allocate_all (n :: ns) s)
      with (allocate_all ns (snd (allocate 1 n s))).
    destruct (allocate_pointer_le 1 n s Hs) as [Hs1 Hle1].
    destruct (IH _ Hs1) as [Hs2 Hle2].
    split; [exact Hs2 | lia].
Qed.

Lemma deallocate_nullptr n s : deallocate nullptr n s = s.
Proof.
  unfold deallocate.
  assert (Hout : pointer_in_buffer nullptr = false).
  { destruct (pointer_in_buffer nullptr) eqn:Hin; [|reflexivity].
    apply pointer_in_buffer_iff in Hin.
    destruct Hbuf as (_ & Hb & _). unfold nullptr in Hin. lia. }
  rewrite Hout. reflexivity.
Qed.

(** A multiple of [alignment] that is a [std::size_t] leaves room for the
    addition in [align_up]. *)
Lemma multiple_no_wrap n :
  SizeT.in_range n -> (alignment | n) -> n + (alignment - 1) < SizeT.modulus.
Proof.
  intros [Hlo Hhi] [q Hq]. destruct alignment_divides_modulus as [m Hm].
  pose proof alignment_pos as Ha.
  assert (Hqm : q < m) by nia.
  nia.
Qed.

Lemma reachable_pointer_aligned s : reachable s -> (alignment | pointer s).
Proof.
  intros Hr. destruct (reachable_inv s Hr) as [_ Hd].
  destruct Hbuf as (_ & _ & _ & Hb).
  replace (pointer s) with ((pointer s - buffer) + buffer) by lia.
  apply Z.divide_add_r; assumption.
Qed.

(** X1: the block that a successful [allocate(n)] returns starts at a
    multiple of [alignment], and its padded extent lies inside the
    buffer; when [n + (alignment - 1)] does not wrap around, so do the
    [n] bytes that were asked for. *)
Theorem allocate_block_in_buffer ReqAlign n s :
  reachable s -> fst (allocate ReqAlign n s) <> nullptr ->
  let p := fst (allocate ReqAlign n s) in
  (alignment | p) /\ isAligned p = true /\
  buffer <= p /\ p + align_up n <= buffer + N /\
  (0 <= n -> n + (alignment - 1) < SizeT.modulus -> p + n <= buffer + N).
Proof.
  intros Hr Hok. cbv zeta.
  pose proof (reachable_in_bounds s Hr) as Hs.
  pose proof (allocate_success_fits ReqAlign n s Hs Hok) as Hfit.
  pose proof (reachable_pointer_aligned s Hr) as Hal.
  rewrite (allocate_fits ReqAlign n s Hs Hfit). cbn [fst].
  rewrite (used_in_bounds s Hs) in Hfit.
  split; [exact Hal|]. split; [apply isAligned_iff, Hal|].
  split; [apply Hs|]. split; [lia|].
  intros Hn Hnw. destruct (align_up_no_wrap n Hn Hnw) as (_ & Hge & _). lia.
Qed.

(** X2: a request so large that [n + (alignment - 1)] wraps around is
    padded to 0 bytes: [allocate] then succeeds in every state, returns
    the cursor and leaves the allocator as it was. *)
Theorem allocate_wrapping_request ReqAlign n s :
  SizeT.in_range n -> SizeT.modulus <= n + (alignment - 1) -> reachable s ->
  align_up n = 0 /\
  allocate ReqAlign n s = (pointer s, s) /\ pointer s <> nullptr.
Proof.
  intros [Hlo Hhi] Hwrap Hr.
  pose proof (reachable_in_bounds s Hr) as Hs.
  pose proof alignment_pos as Ha. pose proof alignment_range as [_ Har].
  assert (Hz : align_up n = 0).
  { rewrite align_up_eq. unfold SizeT.wrap.
    replace (n + (alignment - 1))
      with ((n + (alignment - 1) - SizeT.modulus) + 1 * SizeT.modulus) by lia.
    rewrite Z.mod_add by (pose proof modulus_pos; lia).
    rewrite Z.mod_small by lia.
    rewrite Z.div_small by lia. lia. }
  split; [exact Hz|]. split; [|exact (in_bounds_not_null s Hs)].
  rewrite (allocate_fits ReqAlign n s Hs)
    by (rewrite Hz, (used_in_bounds s Hs); unfold in_bounds in Hs; lia).
  rewrite Hz, Z.add_0_r. destruct s; reflexivity.
Qed.

(** X3: [align_up] leaves a size unchanged exactly when the size is a
    multiple of [alignment]; hence padding a padded size changes
    nothing. *)
Theorem align_up_fixed_points n :
  SizeT.in_range n ->
  (align_up n = n <-> (alignment | n)) /\
  align_up (align_up n) = align_up n.
Proof.
  assert (Hfix : forall m, SizeT.in_range m -> (alignment | m) ->
                           align_up m = m).
  { intros m Hm Hd. pose proof (multiple_no_wrap m Hm Hd) as Hnw.
    destruct (align_up_no_wrap m (proj1 Hm) Hnw) as (_ & Hge & Hleast).
    specialize (Hleast m Hd). lia. }
  intros Hn. split.
  - split; [|apply Hfix; exact Hn].
    intros Heq. rewrite <- Heq. apply align_up_divide.
  - apply Hfix; [apply align_up_range | apply align_up_divide].
Qed.

(** X4: without wrap-around, padding adds fewer than [alignment] bytes,
    and a larger request never gets a smaller padded size. *)
Theorem align_up_padding n m :
  0 <= n <= m -> m + (alignment - 1) < SizeT.modulus ->
  n <= align_up n < n + alignment /\ align_up n <= align_up m.
Proof.
  intros Hnm Hfit. pose proof alignment_pos as Ha.
  rewrite !align_up_eq.
  rewrite !wrap_small by (unfold SizeT.in_range; lia).
  pose proof (Z.mul_div_le (n + (alignment - 1)) _ Ha) as Hle.
  pose proof (Z.mul_succ_div_gt (n + (alignment - 1)) _ Ha) as Hgt.
  assert (Hmono : (n + (alignment - 1)) / alignment
                  <= (m + (alignment - 1)) / alignment)
    by (apply Z.div_le_mono; lia).
  split; [lia|]. apply Z.mul_le_mono_nonneg_l; lia.
Qed.

(** X5: for a power-of-two [alignment], [isAligned(p)] holds exactly when
    the address [p] is a multiple of [alignment]; the cursor of every
    reachable state passes the test. *)
Theorem isAligned_decides_divisibility p s :
  (isAligned p = true <-> (alignment | p)) /\
  (reachable s -> isAligned (pointer s) = true).
Proof.
  split; [apply isAligned_iff|].
  intros Hr. apply isAligned_iff, reachable_pointer_aligned, Hr.
Qed.

(** X6: blocks do not overlap.  When [allocate(n1)] has returned [p1],
    any further allocations follow, and a later [allocate(n2)] returns
    [p2], then [p2] lies at or beyond the padded end of the first block,
    and the second block ends inside the buffer. *)
Theorem allocated_blocks_disjoint n1 ns n2 s :
  reachable s ->
  let p1 := fst (allocate 1 n1 s) in
  let s1 := allocate_all ns (snd (allocate 1 n1 s)) in
  let p2 := fst (allocate 1 n2 s1) in
  p1 <> nullptr -> p2 <> nullptr ->
  p1 + align_up n1 <= p2 /\ p2 + align_up n2 <= buffer + N.
Proof.
  intros Hr. cbv zeta. intros Hok1 Hok2.
  pose proof (reachable_in_bounds s Hr) as Hs.
  pose proof (allocate_success_fits 1 n1 s Hs Hok1) as Hfit1.
  rewrite (allocate_fits 1 n1 s Hs Hfit1) in *. cbn [fst snd] in *.
  assert (Hs1 : in_bounds (mkStackAllocator (pointer s + align_up n1))).
  { pose proof (align_up_range n1) as [Hlo _].
    rewrite (used_in_bounds s Hs) in Hfit1.
    unfold in_bounds in *. cbn [pointer]. lia. }
  destruct (allocate_all_pointer_le ns _ Hs1) as [Hs2 Hle].
  cbn [pointer] in Hle.
  pose proof (allocate_success_fits 1 n2 _ Hs2 Hok2) as Hfit2.
  rewrite (allocate_fits 1 n2 _ Hs2 Hfit2). cbn [fst].
  rewrite (used_in_bounds _ Hs2) in Hfit2. lia.
Qed.

(** X7: a free out of order is ignored.  After two successful
    allocations, [deallocate(p1, n1)] for the first block leaves the
    allocator unchanged when the second block has a padded size above 0;
    when that size is 0 the first block is the top one and is released. *)
Theorem out_of_order_free n1 n2 s :
  reachable s ->
  let p1 := fst (allocate 1 n1 s) in
  let s1 := snd (allocate 1 n1 s) in
  let s2 := snd (allocate 1 n2 s1) in
  p1 <> nullptr -> fst (allocate 1 n2 s1) <> nullptr ->
  (0 < align_up n2 -> deallocate p1 n1 s2 = s2) /\
  (align_up n2 = 0 -> deallocate p1 n1 s2 = s).
Proof.
  intros Hr. cbv zeta. intros Hok1 Hok2.
  pose proof (reachable_in_bounds s Hr) as Hs.
  pose proof (allocate_success_fits 1 n1 s Hs Hok1) as Hfit1.
  destruct (allocate_pointer_le 1 n1 s Hs) as [Hs1 _].
  pose proof (allocate_success_fits 1 n2 _ Hs1 Hok2) as Hfit2.
  rewrite (allocate_fits 1 n2 _ Hs1 Hfit2). cbn [snd].
  rewrite (allocate_fits 1 n1 s Hs Hfit1) in *. cbn [fst snd pointer] in *.
  split.
  - intros Hpos. unfold deallocate.
    destruct (pointer_in_buffer (pointer s)); [|reflexivity].
    cbv zeta. cbn [pointer].
    assert (Hsum : ptr_add (pointer s) (align_up n1) = pointer s + align_up n1).
    { apply ptr_add_exact; [apply Hs|].
      destruct Hbuf as (_ & _ & Hend & _).
      unfold in_bounds in Hs1. cbn [pointer] in Hs1. lia. }
    rewrite Hsum.
    destruct (Z.eqb_spec (pointer s + align_up n1)
                         (pointer s + align_up n1 + align_up n2));
      [lia | reflexivity].
  - intros Hz. rewrite Hz, Z.add_0_r.
    apply (deallocate_top n1 s Hs Hfit1).
Qed.

(** X8: the size given to [deallocate] only matters up to padding.  After
    a successful [allocate(n)] that returned [p], [deallocate(p, m)]
    releases the block when [m] and [n] have the same padded size, and
    is ignored otherwise. *)
Theorem deallocate_other_size ReqAlign n m s :
  reachable s -> fst (allocate ReqAlign n s) <> nullptr ->
  let p := fst (allocate ReqAlign n s) in
  let s1 := snd (allocate ReqAlign n s) in
  (align_up m = align_up n -> deallocate p m s1 = s) /\
  (align_up m <> align_up n -> deallocate p m s1 = s1).
Proof.
  intros Hr Hok. cbv zeta.
  pose proof (reachable_in_bounds s Hr) as Hs.
  pose proof (allocate_success_fits ReqAlign n s Hs Hok) as Hfit.
  rewrite (allocate_fits ReqAlign n s Hs Hfit). cbn [fst snd].
  split.
  - intros Heq. unfold deallocate. cbv zeta. rewrite Heq.
    apply (deallocate_top n s Hs Hfit).
  - intros Hne. unfold deallocate.
    destruct (pointer_in_buffer (pointer s)); [|reflexivity].
    cbv zeta. cbn [pointer].
    destruct (Z.eqb_spec (ptr_add (pointer s) (align_up m))
                         (pointer s + align_up n)) as [Heq | _];
      [|reflexivity].
    exfalso. apply Hne.
    pose proof (align_up_range m) as [Hmlo Hmhi].
    pose proof (align_up_range n) as [Hnlo Hnhi].
    destruct Hbuf as (HN & Hb & Hend & _).
    rewrite (used_in_bounds s Hs) in Hfit. unfold in_bounds in Hs.
    unfold ptr_add, SizeT.wrap in Heq.
    destruct (Z_lt_ge_dec (pointer s + align_up m) SizeT.modulus) as [Hlt | Hge].
    + rewrite Z.mod_small in Heq by lia. lia.
    + replace (pointer s + align_up m)
        with ((pointer s + align_up m - SizeT.modulus) + 1 * SizeT.modulus)
        in Heq by lia.
      rewrite Z.mod_add in Heq by lia.
      rewrite Z.mod_small in Heq by lia. lia.
Qed.

(** X9: when the sum [p + align_up(n)] does not leave the address space,
    [deallocate(p, n)] either leaves the allocator unchanged or moves the
    cursor down to [p], lowering [used()] by exactly [align_up(n)]; it
    never raises [used()]. *)
Theorem deallocate_lowers_cursor p n s :
  reachable s -> p + align_up n < SizeT.modulus ->
  (deallocate p n s = s \/
   pointer (deallocate p n s) = p /\
   used (deallocate p n s) = used s - align_up n) /\
  used (deallocate p n s) <= used s.
Proof.
  intros Hr Hfit. pose proof (reachable_in_bounds s Hr) as Hs.
  split; [|apply deallocate_no_wrap_le; assumption].
  unfold deallocate.
  destruct (pointer_in_buffer p) eqn:Hin; [|left; reflexivity].
  cbv zeta.
  destruct (Z.eqb_spec (ptr_add p (align_up n)) (pointer s)) as [Htop | _];
    [|left; reflexivity].
  right. apply pointer_in_buffer_iff in Hin.
  rewrite ptr_add_exact in Htop by (assumption || apply Hin).
  rewrite (used_in_bounds s Hs), (used_in_bounds (mkStackAllocator p) Hin).
  cbn [pointer]. split; [reflexivity | lia].
Qed.

(** X10: a caller that keeps the stack discipline gets the allocator back
    as it was, whatever the sizes are and whether or not the allocations
    succeed: a block is released by the matching [deallocate], and the
    null pointer of a failed [allocate] is ignored by it. *)
Theorem allocate_scoped_restores ns s :
  reachable s -> allocate_scoped ns s = s.
Proof.
  revert s. induction ns as [|n ns IH]; intros s Hr; [reflexivity|].
  cbn [allocate_scoped].
  pose proof (reachable_in_bounds s Hr) as Hs.
  pose proof (IH _ (reachable_exec (Allocate 1 n) s Hr)) as Hinner.
  cbn [exec] in Hinner.
  destruct (Z_le_gt_dec (align_up n) (N - used s)) as [Hfit | Hfit].
  - rewrite (allocate_fits 1 n s Hs Hfit) in *. cbn [snd] in Hinner.
    rewrite Hinner. apply (deallocate_top n s Hs Hfit).
  - rewrite (allocate_exhausted 1 n s Hs) in * by lia. cbn [snd] in Hinner.
    rewrite Hinner. apply deallocate_nullptr.
Qed.

(** X11: a marker stays usable whatever is called after it was taken
    ([reset()] included).  [resetToMarker] with a marker taken in a
    reachable state puts the allocator back into exactly that state, and
    on this successful path it still writes the "not aligned" line to
    the standard error stream. *)
Theorem marker_survives_any_calls s cs :
  reachable s ->
  let m := fst (getCurrentMarker s) in
  resetToMarker m (run cs (snd (getCurrentMarker s))) = (s, diagnostic m).
Proof.
  intros Hr. cbv zeta. unfold getCurrentMarker. cbn [fst snd].
  pose proof (resetToMarker_marker s (run cs s) (reachable_inv s Hr)) as Hm.
  pose proof (resetToMarker_always_writes (pointer s) (run cs s)) as Hw.
  destruct (resetToMarker (pointer s) (run cs s)) as [t err].
  cbn [fst snd] in *. subst. reflexivity.
Qed.

(** X12: the last [N mod alignment] bytes of the buffer are never handed
    out: in every reachable state [used()] is at most
    [N - N mod alignment]. *)
Theorem tail_never_used s :
  reachable s -> used s <= N - N mod alignment.
Proof.
  intros Hr. pose proof alignment_pos as Ha.
  destruct (inv_cursor_ok s (reachable_inv s Hr)) as [[Hlo Hhi] [q Hq]].
  rewrite Hq in *.
  assert (Hq' : q <= N / alignment)
    by (apply Z.div_le_lower_bound; lia).
  pose proof (Z.div_mod N alignment ltac:(lia)) as Hdm.
  nia.
Qed.

(** X13: the reachable states are exactly the states whose cursor lies in
    [[buffer, buffer + N]] at an offset that is a multiple of
    [alignment].  [resetToMarker] does not ask that its argument was
    ever returned by [getCurrentMarker]: one call on the fresh allocator
    reaches each of these states. *)
Theorem reachable_iff_aligned_in_buffer s :
  (reachable s <->
   buffer <= pointer s <= buffer + N /\ (alignment | pointer s - buffer)) /\
  (reachable s -> s = fst (resetToMarker (pointer s) init)).
Proof.
  assert (Hback : inv s -> s = fst (resetToMarker (pointer s) init))
    by (intros Hinv; symmetry; apply resetToMarker_marker, Hinv).
  split; [split|].
  - apply reachable_inv.
  - intros Hinv. rewrite (Hback Hinv).
    apply (reachable_exec (ResetToMarker (pointer s)) init), reachable_init.
  - intros Hr. apply Hback, reachable_inv, Hr.
Qed.

End StackAllocator.

(** ** A concrete instance: [StackAllocator<64, 8>] with [buffer] at 4096 *)

(** The state after one [allocate<8>(16)]. *)
Notation after_16 := (exec 64 8 4096 (Allocate 8 16) (init 4096)).

Ltac instance_facts :=
  lazymatch goal with
  | |- power_of_two _ =>
      exists 3; split; [unfold SizeT.bits; lia | reflexivity]
  | |- buffer_ok _ _ _ =>
      unfold buffer_ok, SizeT.modulus, SizeT.bits;
      repeat (split; [lia|]); exists 512; reflexivity
  | |- allocate_instantiable _ _ => unfold allocate_instantiable; lia
  | |- reachable _ _ _ _ =>
      repeat (first [apply reachable_init | apply reachable_exec])
  end.

(** Scenario "fill and exhaust": the returned pointers, then [used()]. *)
Example fill_and_exhaust :
  let s0 := init 4096 in
  let '(p0, s1) := allocate 64 8 4096 8 8 s0 in
  let '(p1, s2) := allocate 64 8 4096 8 40 s1 in
  let '(p2, s3) := allocate 64 8 4096 8 24 s2 in
  let '(p3, s4) := allocate 64 8 4096 8 16 s3 in
  let '(p4, s5) := allocate 64 8 4096 1 1 s4 in
  [p0; p1; p2; p3; p4] = [4096; 4096 + 8; nullptr; 4096 + 48; nullptr] /\
  map (used 4096) [s1; s2; s3; s4; s5] = [8; 48; 48; 64; 64].
Proof. vm_compute. split; reflexivity. Qed.

(** Scenario "LIFO free succeeds, out-of-order free is ignored". *)
Example lifo_and_out_of_order :
  let s3 := run 64 8 4096
              [Allocate 8 8; Allocate 8 8; Allocate 8 8] (init 4096) in
  let s4 := deallocate 64 8 4096 (4096 + 8) 8 s3 in
  let s5 := deallocate 64 8 4096 (4096 + 16) 8 s4 in
  let s6 := deallocate 64 8 4096 4096 8 s5 in
  map (used 4096) [s3; s4; s5; s6; reset 4096 s6] = [24; 24; 16; 16; 0].
Proof. vm_compute. reflexivity. Qed.

(** Scenario "marker rollback". *)
Example marker_rollback :
  let '(m, s1) := getCurrentMarker after_16 in
  let s2 := snd (allocate 64 8 4096 8 24 s1) in
  let '(s3, err) := resetToMarker 64 8 4096 m s2 in
  (used 4096 s2, used 4096 s3) = (40, 16) /\
  fst (allocate 64 8 4096 8 24 s3) = 4096 + 16 /\
  err = diagnostic m.
Proof. vm_compute. repeat split; reflexivity. Qed.

(** ** Inputs on which the rounding and the pointer sum wrap around *)

(** C5, as stated, fails: [SIZE_MAX] is a [std::size_t], 8 is a power of
    two, and [align_up] wraps around to 0, which is below the request. *)
Lemma align_up_wraps_around :
  power_of_two 8 /\ SizeT.in_range (2 ^ 64 - 1) /\
  align_up 8 (2 ^ 64 - 1) = 0 /\
  ~ least_multiple_geq 8 (2 ^ 64 - 1) (align_up 8 (2 ^ 64 - 1)).
Proof.
  split; [instance_facts|].
  split; [unfold SizeT.in_range, SizeT.modulus, SizeT.bits; lia|].
  split; [vm_compute; reflexivity|].
  intros (_ & Hge & _). vm_compute in Hge. apply Hge. reflexivity.
Qed.

(** C6, as stated, fails: in [StackAllocator<10, 8>] a request of
    [10 <= N] bytes right after [reset()] is padded to 16 and refused. *)
Lemma reset_then_allocate_refused :
  power_of_two 8 /\ buffer_ok 10 8 4096 /\
  used 4096 (reset 4096 (init 4096)) = 0 /\ 0 <= 10 <= 10 /\
  align_up 8 10 = 16 /\
  allocate 10 8 4096 1 10 (reset 4096 (init 4096)) = (nullptr, init 4096).
Proof.
  split; [instance_facts|]. split; [instance_facts|].
  split; [reflexivity|]. split; [lia|].
  split; vm_compute; reflexivity.
Qed.

(** C2 on the code: in [StackAllocator<64, 8>] after [allocate<8>(16)] the
    cursor is [buffer + 16].  For [p = buffer + 48], inside the buffer,
    and [n = 2^64 - 32], the integer [p + align_up(n)] is not the cursor,
    so the call should do nothing; but the 64-bit pointer sum that the
    code compares wraps around to the cursor, the call changes the
    allocator, and the cursor does not go back to an earlier position:
    it moves forward, past the old cursor, to [p]. *)
Theorem deallocate_wrapped_sum_moves_cursor :
  power_of_two 8 /\ buffer_ok 64 8 4096 /\ reachable 64 8 4096 after_16 /\
  SizeT.in_range (2 ^ 64 - 32) /\
  4096 <= 4096 + 48 <= 4096 + 64 /\
  (4096 + 48) + align_up 8 (2 ^ 64 - 32) <> pointer after_16 /\
  deallocate 64 8 4096 (4096 + 48) (2 ^ 64 - 32) after_16 <> after_16 /\
  pointer after_16
  < pointer (deallocate 64 8 4096 (4096 + 48) (2 ^ 64 - 32) after_16) /\
  pointer (deallocate 64 8 4096 (4096 + 48) (2 ^ 64 - 32) after_16)
  = 4096 + 48.
Proof.
  split; [instance_facts|]. split; [instance_facts|].
  split; [instance_facts|].
  split; [unfold SizeT.in_range, SizeT.modulus, SizeT.bits; lia|].
  split; [lia|].
  split; [vm_compute; discriminate|].
  split; [vm_compute; discriminate|].
  split; vm_compute; reflexivity.
Qed.

(** C10 on the code: in [StackAllocator<64, 8>] after [allocate<8>(16)],
    the call [deallocate(buffer + 48, 2^64 - 32)] passes the range check,
    its pointer sum wraps around to [buffer + 16], the cursor, and the
    assignment [pointer = p] moves [used()] from 16 up to 48. *)
Theorem deallocate_raises_cursor :
  power_of_two 8 /\ buffer_ok 64 8 4096 /\ reachable 64 8 4096 after_16 /\
  SizeT.in_range (2 ^ 64 - 32) /\
  pointer_in_buffer 64 4096 (4096 + 48) = true /\
  align_up 8 (2 ^ 64 - 32) = 2 ^ 64 - 32 /\
  ptr_add (4096 + 48) (2 ^ 64 - 32) = pointer after_16 /\
  used 4096 after_16 = 16 /\
  used 4096 (deallocate 64 8 4096 (4096 + 48) (2 ^ 64 - 32) after_16) = 48.
Proof.
  split; [instance_facts|]. split; [instance_facts|].
  split; [instance_facts|].
  split; [unfold SizeT.in_range, SizeT.modulus, SizeT.bits; lia|].
  repeat split; vm_compute; reflexivity.
Qed.

(** ** The theorems at the concrete instance *)

Lemma allocate_succeeds_iff_fits_witness :
  power_of_two 8 /\ buffer_ok 64 8 4096 /\
  allocate_instantiable 8 8 /\ reachable 64 8 4096 after_16 /\
  (fst (allocate 64 8 4096 8 24 after_16) <> nullptr
   <-> align_up 8 24 <= 64 - used 4096 after_16) /\
  (align_up 8 24 <= 64 - used 4096 after_16 ->
   fst (allocate 64 8 4096 8 24 after_16) = 4096 + used 4096 after_16 /\
   used 4096 (snd (allocate 64 8 4096 8 24 after_16))
   = used 4096 after_16 + align_up 8 24) /\
  (~ align_up 8 24 <= 64 - used 4096 after_16 ->
   fst (allocate 64 8 4096 8 24 after_16) = nullptr /\
   snd (allocate 64 8 4096 8 24 after_16) = after_16).
Proof.
  assert (Hp : power_of_two 8) by instance_facts.
  assert (Hb : buffer_ok 64 8 4096) by instance_facts.
  assert (Hi : allocate_instantiable 8 8) by instance_facts.
  assert (Hr : reachable 64 8 4096 after_16) by instance_facts.
  split; [exact Hp|]. split; [exact Hb|]. split; [exact Hi|].
  split; [exact Hr|].
  exact (allocate_succeeds_iff_fits 64 8 4096 Hp Hb 8 24 after_16 Hi Hr).
Defined.

Lemma deallocate_cases_witness :
  power_of_two 8 /\ buffer_ok 64 8 4096 /\
  deallocate 64 8 4096 8 16 after_16 = after_16 /\
  (pointer (deallocate 64 8 4096 4096 16 after_16) = 4096 /\
   used 4096 (deallocate 64 8 4096 4096 16 after_16) = 4096 - 4096) /\
  deallocate 64 8 4096 (4096 + 8) 16 after_16 = after_16 /\
  ptr_add 4096 (align_up 8 16) = 4096 + align_up 8 16.
Proof.
  assert (Hp : power_of_two 8) by instance_facts.
  assert (Hb : buffer_ok 64 8 4096) by instance_facts.
  pose proof (deallocate_cases 64 8 4096 Hp Hb 8 16 after_16)
    as (Hout & _).
  pose proof (deallocate_cases 64 8 4096 Hp Hb 4096 16 after_16)
    as (_ & Htop & _ & Hsum).
  pose proof (deallocate_cases 64 8 4096 Hp Hb (4096 + 8) 16 after_16)
    as (_ & _ & Hmid & _).
  split; [exact Hp|]. split; [exact Hb|]. split; [|split; [|split]].
  - apply Hout. lia.
  - apply Htop; [lia | vm_compute; reflexivity].
  - apply Hmid; [lia | vm_compute; discriminate].
  - apply Hsum; [lia | vm_compute; reflexivity].
Defined.

Lemma resetToMarker_checks_witness :
  power_of_two 8 /\ buffer_ok 64 8 4096 /\
  pointer (fst (resetToMarker 64 8 4096 (4096 + 8) after_16)) = 4096 + 8 /\
  (snd (resetToMarker 64 8 4096 (4096 + 3) after_16) = diagnostic (4096 + 3) /\
   fst (resetToMarker 64 8 4096 (4096 + 3) after_16) = after_16) /\
  (snd (resetToMarker 64 8 4096 8192 after_16) = diagnostic 8192 /\
   fst (resetToMarker 64 8 4096 8192 after_16) = after_16).
Proof.
  assert (Hp : power_of_two 8) by instance_facts.
  assert (Hb : buffer_ok 64 8 4096) by instance_facts.
  split; [exact Hp|]. split; [exact Hb|]. split; [|split].
  - apply (proj1 (resetToMarker_checks 64 8 4096 Hp Hb (4096 + 8) after_16)).
    split; [lia | exists 513; reflexivity].
  - apply (proj2 (resetToMarker_checks 64 8 4096 Hp Hb (4096 + 3) after_16)).
    intros [_ [q Hq]]. lia.
  - apply (proj2 (resetToMarker_checks 64 8 4096 Hp Hb 8192 after_16)).
    intros [Hin _]. lia.
Defined.

Lemma cursor_invariant_witness :
  power_of_two 8 /\ buffer_ok 64 8 4096 /\ reachable 64 8 4096 after_16 /\
  used 4096 (init 4096) = 0 /\
  (0 <= used 4096 after_16 <= 64 /\ (8 | used 4096 after_16)) /\
  forall c, 0 <= used 4096 (exec 64 8 4096 c after_16) <= 64 /\
            (8 | used 4096 (exec 64 8 4096 c after_16)).
Proof.
  assert (Hp : power_of_two 8) by instance_facts.
  assert (Hb : buffer_ok 64 8 4096) by instance_facts.
  assert (Hr : reachable 64 8 4096 after_16) by instance_facts.
  split; [exact Hp|]. split; [exact Hb|]. split; [exact Hr|].
  exact (cursor_invariant 64 8 4096 Hp Hb after_16 Hr).
Defined.

Lemma align_up_least_multiple_witness :
  power_of_two 8 /\ 0 <= 13 /\ 13 + (8 - 1) < SizeT.modulus /\
  align_up 8 13 = 8 * ((13 + (8 - 1)) / 8) /\
  least_multiple_geq 8 13 (align_up 8 13).
Proof.
  assert (Hp : power_of_two 8) by instance_facts.
  assert (Hn : 0 <= 13) by lia.
  assert (Hfit : 13 + (8 - 1) < SizeT.modulus) by reflexivity.
  split; [exact Hp|]. split; [exact Hn|]. split; [exact Hfit|].
  exact (align_up_least_multiple 8 Hp 13 Hn Hfit).
Defined.

Lemma reset_then_allocate_witness :
  power_of_two 8 /\ buffer_ok 64 8 4096 /\ allocate_instantiable 8 8 /\
  used 4096 (reset 4096 after_16) = 0 /\
  (fst (allocate 64 8 4096 8 64 (reset 4096 after_16)) <> nullptr
   <-> align_up 8 64 <= 64) /\
  (align_up 8 64 <= 64 ->
   fst (allocate 64 8 4096 8 64 (reset 4096 after_16)) = 4096) /\
  ((8 | 64) -> 0 <= 64 <= 64 ->
   fst (allocate 64 8 4096 8 64 (reset 4096 after_16)) = 4096 /\
   fst (allocate 64 8 4096 8 64 (reset 4096 after_16)) <> nullptr).
Proof.
  assert (Hp : power_of_two 8) by instance_facts.
  assert (Hb : buffer_ok 64 8 4096) by instance_facts.
  assert (Hi : allocate_instantiable 8 8) by instance_facts.
  split; [exact Hp|]. split; [exact Hb|]. split; [exact Hi|].
  exact (reset_then_allocate 64 8 4096 Hp Hb 8 64 after_16 Hi).
Defined.

Lemma marker_roundtrip_witness :
  power_of_two 8 /\ buffer_ok 64 8 4096 /\ reachable 64 8 4096 after_16 /\
  padded_total 8 [24; 3] <= 64 - used 4096 after_16 /\
  used 4096
    (fst (resetToMarker 64 8 4096 (fst (getCurrentMarker after_16))
            (allocate_all 64 8 4096 [24; 3]
               (snd (getCurrentMarker after_16)))))
  = used 4096 after_16 /\
  used 4096 (allocate_all 64 8 4096 [24; 3] (snd (getCurrentMarker after_16)))
  = used 4096 after_16 + padded_total 8 [24; 3].
Proof.
  assert (Hfit : padded_total 8 [24; 3] <= 64 - used 4096 after_16)
    by (vm_compute; discriminate).
  assert (Hp : power_of_two 8) by instance_facts.
  assert (Hb : buffer_ok 64 8 4096) by instance_facts.
  assert (Hr : reachable 64 8 4096 after_16) by instance_facts.
  split; [exact Hp|]. split; [exact Hb|]. split; [exact Hr|].
  split; [exact Hfit|].
  destruct (marker_roundtrip 64 8 4096 Hp Hb after_16 [24; 3] Hr)
    as [Hback Hsum].
  split; [exact Hback | exact (Hsum Hfit)].
Defined.

Lemma allocate_deallocate_lifo_witness :
  power_of_two 8 /\ buffer_ok 64 8 4096 /\ reachable 64 8 4096 after_16 /\
  fst (allocate 64 8 4096 8 24 after_16) <> nullptr /\
  used 4096
    (deallocate 64 8 4096 (fst (allocate 64 8 4096 8 24 after_16)) 24
       (snd (allocate 64 8 4096 8 24 after_16)))
  = used 4096 after_16 /\
  fst (allocate 64 8 4096 8 24
         (deallocate 64 8 4096 (fst (allocate 64 8 4096 8 24 after_16)) 24
            (snd (allocate 64 8 4096 8 24 after_16))))
  = fst (allocate 64 8 4096 8 24 after_16).
Proof.
  assert (Hp : power_of_two 8) by instance_facts.
  assert (Hb : buffer_ok 64 8 4096) by instance_facts.
  assert (Hr : reachable 64 8 4096 after_16) by instance_facts.
  assert (Hok : fst (allocate 64 8 4096 8 24 after_16) <> nullptr)
    by (vm_compute; discriminate).
  split; [exact Hp|]. split; [exact Hb|]. split; [exact Hr|].
  split; [exact Hok|].
  exact (allocate_deallocate_lifo 64 8 4096 Hp Hb 8 24 after_16 Hr Hok).
Defined.

Lemma allocate_zero_witness :
  power_of_two 8 /\ buffer_ok 64 8 4096 /\
  allocate_instantiable 8 1 /\ reachable 64 8 4096 after_16 /\
  fst (allocate 64 8 4096 1 0 after_16) <> nullptr /\
  fst (allocate 64 8 4096 1 0 after_16) = 4096 + used 4096 after_16 /\
  4096 <= fst (allocate 64 8 4096 1 0 after_16) <= 4096 + 64 /\
  snd (allocate 64 8 4096 1 0 after_16) = after_16 /\
  used 4096 (snd (allocate 64 8 4096 1 0 after_16)) = used 4096 after_16.
Proof.
  assert (Hp : power_of_two 8) by instance_facts.
  assert (Hb : buffer_ok 64 8 4096) by instance_facts.
  assert (Hi : allocate_instantiable 8 1) by instance_facts.
  assert (Hr : reachable 64 8 4096 after_16) by instance_facts.
  split; [exact Hp|]. split; [exact Hb|]. split; [exact Hi|].
  split; [exact Hr|].
  exact (allocate_zero 64 8 4096 Hp Hb 1 after_16 Hi Hr).
Defined.

(** ** The further properties at the concrete instance *)

Lemma allocate_block_in_buffer_witness :
  power_of_two 8 /\ buffer_ok 64 8 4096 /\ reachable 64 8 4096 after_16 /\
  fst (allocate 64 8 4096 8 20 after_16) <> nullptr /\
  let p := fst (allocate 64 8 4096 8 20 after_16) in
  (8 | p) /\ isAligned 8 p = true /\
  4096 <= p /\ p + align_up 8 20 <= 4096 + 64 /\
  (0 <= 20 -> 20 + (8 - 1) < SizeT.modulus -> p + 20 <= 4096 + 64).
Proof.
  assert (Hp : power_of_two 8) by instance_facts.
  assert (Hb : buffer_ok 64 8 4096) by instance_facts.
  assert (Hr : reachable 64 8 4096 after_16) by instance_facts.
  assert (Hok : fst (allocate 64 8 4096 8 20 after_16) <> nullptr)
    by (vm_compute; discriminate).
  split; [exact Hp|]. split; [exact Hb|]. split; [exact Hr|].
  split; [exact Hok|].
  exact (allocate_block_in_buffer 64 8 4096 Hp Hb 8 20 after_16 Hr Hok).
Defined.

Lemma allocate_wrapping_request_witness :
  power_of_two 8 /\ buffer_ok 64 8 4096 /\
  SizeT.in_range (2 ^ 64 - 1) /\
  SizeT.modulus <= 2 ^ 64 - 1 + (8 - 1) /\
  reachable 64 8 4096 after_16 /\
  align_up 8 (2 ^ 64 - 1) = 0 /\
  allocate 64 8 4096 1 (2 ^ 64 - 1) after_16 = (pointer after_16, after_16) /\
  pointer after_16 <> nullptr.
Proof.
  assert (Hp : power_of_two 8) by instance_facts.
  assert (Hb : buffer_ok 64 8 4096) by instance_facts.
  assert (Hn : SizeT.in_range (2 ^ 64 - 1))
    by (unfold SizeT.in_range, SizeT.modulus, SizeT.bits; lia).
  assert (Hw : SizeT.modulus <= 2 ^ 64 - 1 + (8 - 1))
    by (unfold SizeT.modulus, SizeT.bits; lia).
  assert (Hr : reachable 64 8 4096 after_16) by instance_facts.
  split; [exact Hp|]. split; [exact Hb|]. split; [exact Hn|].
  split; [exact Hw|]. split; [exact Hr|].
  exact (allocate_wrapping_request 64 8 4096 Hp Hb 1 (2 ^ 64 - 1) after_16
           Hn Hw Hr).
Defined.

Lemma align_up_fixed_points_witness :
  power_of_two 8 /\ SizeT.in_range 24 /\
  (align_up 8 24 = 24 <-> (8 | 24)) /\
  align_up 8 (align_up 8 24) = align_up 8 24.
Proof.
  assert (Hp : power_of_two 8) by instance_facts.
  assert (Hn : SizeT.in_range 24)
    by (unfold SizeT.in_range, SizeT.modulus, SizeT.bits; lia).
  split; [exact Hp|]. split; [exact Hn|].
  exact (align_up_fixed_points 8 Hp 24 Hn).
Defined.

Lemma align_up_padding_witness :
  power_of_two 8 /\ 0 <= 13 <= 20 /\ 20 + (8 - 1) < SizeT.modulus /\
  13 <= align_up 8 13 < 13 + 8 /\ align_up 8 13 <= align_up 8 20.
Proof.
  assert (Hp : power_of_two 8) by instance_facts.
  assert (Hnm : 0 <= 13 <= 20) by lia.
  assert (Hfit : 20 + (8 - 1) < SizeT.modulus) by reflexivity.
  split; [exact Hp|]. split; [exact Hnm|]. split; [exact Hfit|].
  exact (align_up_padding 8 Hp 13 20 Hnm Hfit).
Defined.

Lemma isAligned_decides_divisibility_witness :
  power_of_two 8 /\ buffer_ok 64 8 4096 /\
  reachable 64 8 4096 after_16 /\
  (isAligned 8 4100 = true <-> (8 | 4100)) /\
  isAligned 8 (pointer after_16) = true.
Proof.
  assert (Hp : power_of_two 8) by instance_facts.
  assert (Hb : buffer_ok 64 8 4096) by instance_facts.
  assert (Hr : reachable 64 8 4096 after_16) by instance_facts.
  split; [exact Hp|]. split; [exact Hb|]. split; [exact Hr|].
  destruct (isAligned_decides_divisibility 64 8 4096 Hp Hb 4100 after_16)
    as [Hiff Hcur].
  split; [exact Hiff | exact (Hcur Hr)].
Defined.

Lemma allocated_blocks_disjoint_witness :
  power_of_two 8 /\ buffer_ok 64 8 4096 /\ reachable 64 8 4096 after_16 /\
  fst (allocate 64 8 4096 1 8 after_16) <> nullptr /\
  fst (allocate 64 8 4096 1 5
         (allocate_all 64 8 4096 [3; 16]
            (snd (allocate 64 8 4096 1 8 after_16)))) <> nullptr /\
  fst (allocate 64 8 4096 1 8 after_16) + align_up 8 8
  <= fst (allocate 64 8 4096 1 5
            (allocate_all 64 8 4096 [3; 16]
               (snd (allocate 64 8 4096 1 8 after_16)))) /\
  fst (allocate 64 8 4096 1 5
         (allocate_all 64 8 4096 [3; 16]
            (snd (allocate 64 8 4096 1 8 after_16)))) + align_up 8 5
  <= 4096 + 64.
Proof.
  assert (Hp : power_of_two 8) by instance_facts.
  assert (Hb : buffer_ok 64 8 4096) by instance_facts.
  assert (Hr : reachable 64 8 4096 after_16) by instance_facts.
  assert (Hok1 : fst (allocate 64 8 4096 1 8 after_16) <> nullptr)
    by (vm_compute; discriminate).
  assert (Hok2 : fst (allocate 64 8 4096 1 5
                        (allocate_all 64 8 4096 [3; 16]
                           (snd (allocate 64 8 4096 1 8 after_16))))
                 <> nullptr)
    by (vm_compute; discriminate).
  split; [exact Hp|]. split; [exact Hb|]. split; [exact Hr|].
  split; [exact Hok1|]. split; [exact Hok2|].
  exact (allocated_blocks_disjoint 64 8 4096 Hp Hb 8 [3; 16] 5 after_16
           Hr Hok1 Hok2).
Defined.

Lemma out_of_order_free_witness :
  power_of_two 8 /\ buffer_ok 64 8 4096 /\ reachable 64 8 4096 after_16 /\
  fst (allocate 64 8 4096 1 8 after_16) <> nullptr /\
  fst (allocate 64 8 4096 1 8 (snd (allocate 64 8 4096 1 8 after_16)))
  <> nullptr /\
  0 < align_up 8 8 /\
  deallocate 64 8 4096 (fst (allocate 64 8 4096 1 8 after_16)) 8
    (snd (allocate 64 8 4096 1 8 (snd (allocate 64 8 4096 1 8 after_16))))
  = snd (allocate 64 8 4096 1 8 (snd (allocate 64 8 4096 1 8 after_16))).
Proof.
  assert (Hp : power_of_two 8) by instance_facts.
  assert (Hb : buffer_ok 64 8 4096) by instance_facts.
  assert (Hr : reachable 64 8 4096 after_16) by instance_facts.
  assert (Hok1 : fst (allocate 64 8 4096 1 8 after_16) <> nullptr)
    by (vm_compute; discriminate).
  assert (Hok2 : fst (allocate 64 8 4096 1 8
                        (snd (allocate 64 8 4096 1 8 after_16))) <> nullptr)
    by (vm_compute; discriminate).
  assert (Hpos : 0 < align_up 8 8) by reflexivity.
  split; [exact Hp|]. split; [exact Hb|]. split; [exact Hr|].
  split; [exact Hok1|]. split; [exact Hok2|]. split; [exact Hpos|].
  exact (proj1 (out_of_order_free 64 8 4096 Hp Hb 8 8 after_16 Hr Hok1 Hok2)
           Hpos).
Defined.

Lemma deallocate_other_size_witness :
  power_of_two 8 /\ buffer_ok 64 8 4096 /\ reachable 64 8 4096 after_16 /\
  fst (allocate 64 8 4096 8 20 after_16) <> nullptr /\
  align_up 8 24 = align_up 8 20 /\ align_up 8 16 <> align_up 8 20 /\
  deallocate 64 8 4096 (fst (allocate 64 8 4096 8 20 after_16)) 24
    (snd (allocate 64 8 4096 8 20 after_16)) = after_16 /\
  deallocate 64 8 4096 (fst (allocate 64 8 4096 8 20 after_16)) 16
    (snd (allocate 64 8 4096 8 20 after_16))
  = snd (allocate 64 8 4096 8 20 after_16).
Proof.
  assert (Hp : power_of_two 8) by instance_facts.
  assert (Hb : buffer_ok 64 8 4096) by instance_facts.
  assert (Hr : reachable 64 8 4096 after_16) by instance_facts.
  assert (Hok : fst (allocate 64 8 4096 8 20 after_16) <> nullptr)
    by (vm_compute; discriminate).
  assert (Hsame : align_up 8 24 = align_up 8 20) by reflexivity.
  assert (Hdiff : align_up 8 16 <> align_up 8 20)
    by (vm_compute; discriminate).
  split; [exact Hp|]. split; [exact Hb|]. split; [exact Hr|].
  split; [exact Hok|]. split; [exact Hsame|]. split; [exact Hdiff|].
  split.
  - exact (proj1 (deallocate_other_size 64 8 4096 Hp Hb 8 20 24 after_16
                    Hr Hok) Hsame).
  - exact (proj2 (deallocate_other_size 64 8 4096 Hp Hb 8 20 16 after_16
                    Hr Hok) Hdiff).
Defined.

Lemma deallocate_lowers_cursor_witness :
  power_of_two 8 /\ buffer_ok 64 8 4096 /\ reachable 64 8 4096 after_16 /\
  4096 + align_up 8 16 < SizeT.modulus /\
  (deallocate 64 8 4096 4096 16 after_16 = after_16 \/
   pointer (deallocate 64 8 4096 4096 16 after_16) = 4096 /\
   used 4096 (deallocate 64 8 4096 4096 16 after_16)
   = used 4096 after_16 - align_up 8 16) /\
  used 4096 (deallocate 64 8 4096 4096 16 after_16) <= used 4096 after_16.
Proof.
  assert (Hp : power_of_two 8) by instance_facts.
  assert (Hb : buffer_ok 64 8 4096) by instance_facts.
  assert (Hr : reachable 64 8 4096 after_16) by instance_facts.
  assert (Hfit : 4096 + align_up 8 16 < SizeT.modulus) by reflexivity.
  split; [exact Hp|]. split; [exact Hb|]. split; [exact Hr|].
  split; [exact Hfit|].
  exact (deallocate_lowers_cursor 64 8 4096 Hp Hb 4096 16 after_16 Hr Hfit).
Defined.

Lemma allocate_scoped_restores_witness :
  power_of_two 8 /\ buffer_ok 64 8 4096 /\ reachable 64 8 4096 after_16 /\
  allocate_scoped 64 8 4096 [8; 100; 16] after_16 = after_16.
Proof.
  assert (Hp : power_of_two 8) by instance_facts.
  assert (Hb : buffer_ok 64 8 4096) by instance_facts.
  assert (Hr : reachable 64 8 4096 after_16) by instance_facts.
  split; [exact Hp|]. split; [exact Hb|]. split; [exact Hr|].
  exact (allocate_scoped_restores 64 8 4096 Hp Hb [8; 100; 16] after_16 Hr).
Defined.

Lemma marker_survives_any_calls_witness :
  power_of_two 8 /\ buffer_ok 64 8 4096 /\ reachable 64 8 4096 after_16 /\
  resetToMarker 64 8 4096 (fst (getCurrentMarker after_16))
    (run 64 8 4096 [Allocate 8 8; Reset; Deallocate 4096 8]
       (snd (getCurrentMarker after_16)))
  = (after_16, diagnostic (fst (getCurrentMarker after_16))).
Proof.
  assert (Hp : power_of_two 8) by instance_facts.
  assert (Hb : buffer_ok 64 8 4096) by instance_facts.
  assert (Hr : reachable 64 8 4096 after_16) by instance_facts.
  split; [exact Hp|]. split; [exact Hb|]. split; [exact Hr|].
  exact (marker_survives_any_calls 64 8 4096 Hp Hb after_16
           [Allocate 8 8; Reset; Deallocate 4096 8] Hr).
Defined.

Lemma tail_never_used_witness :
  power_of_two 8 /\ buffer_ok 60 8 4096 /\
  reachable 60 8 4096 (exec 60 8 4096 (Allocate 8 56) (init 4096)) /\
  used 4096 (exec 60 8 4096 (Allocate 8 56) (init 4096)) <= 60 - 60 mod 8.
Proof.
  assert (Hp : power_of_two 8) by instance_facts.
  assert (Hb : buffer_ok 60 8 4096) by instance_facts.
  assert (Hr : reachable 60 8 4096 (exec 60 8 4096 (Allocate 8 56) (init 4096)))
    by instance_facts.
  split; [exact Hp|]. split; [exact Hb|]. split; [exact Hr|].
  exact (tail_never_used 60 8 4096 Hp Hb _ Hr).
Defined.

Lemma reachable_iff_aligned_in_buffer_witness :
  power_of_two 8 /\ buffer_ok 64 8 4096 /\
  (reachable 64 8 4096 after_16 <->
   4096 <= pointer after_16 <= 4096 + 64 /\ (8 | pointer after_16 - 4096)) /\
  (reachable 64 8 4096 after_16 ->
   after_16 = fst (resetToMarker 64 8 4096 (pointer after_16) (init 4096))).
Proof.
  assert (Hp : power_of_two 8) by instance_facts.
  assert (Hb : buffer_ok 64 8 4096) by instance_facts.
  split; [exact Hp|]. split; [exact Hb|].
  exact (reachable_iff_aligned_in_buffer 64 8 4096 Hp Hb after_16).
Defined.
